(** * AudioProcessor: a shallow embedding of [audioprocessor.py]

    The Python module manipulates sounds: dictionaries with a sample
    [rate] and two lists of samples, [left] and [right].  This file
    embeds its functions and checks the properties of the toolkit's
    specification against them.

    Numbers.  Python's floats are idealised as exact rationals ([Qc],
    the canonical rationals, whose equality is Leibniz equality): every
    statement below is a statement under exact arithmetic.  Integers
    are [Z].

    Failure.  A Python exception is a value of [exn]; a computation that
    may raise has type [result A]. *)

From Stdlib Require Import ZArith QArith Qcanon Qround Lia Lqa.
From stdpp Require Import base numbers list strings gmap.
From Equations Require Import Equations.

Local Open Scope Z_scope.

(** ** The Python runtime the module relies on *)

Module Py.

Inductive exn : Type :=
| AssertionError (msg : string)
| IndexError
| ZeroDivisionError
| StructError
| WaveError
| FileNotFoundError.

Inductive result (A : Type) : Type :=
| Ok (a : A)
| Raise (e : exn).
Global Arguments Ok {A} a.
Global Arguments Raise {A} e.

(** Sequencing: the first exception ends the computation. *)
Global Instance result_ret : MRet result := fun A a => Ok a.
Global Instance result_bind : MBind result := fun A B k m =>
  match m with
  | Ok a => k a
  | Raise e => Raise e
  end.

Definition is_ok {A} (m : result A) : bool :=
  match m with Ok _ => true | Raise _ => false end.

(** [l[j]]: a negative index counts from the end; anything outside
    [-len, len) raises [IndexError]. *)
Definition getitem {A} (l : list A) (j : Z) : result A :=
  let n := Z.of_nat (length l) in
  let j' := if j <? 0 then j + n else j in
  if (j' <? 0) || (n <=? j') then Raise IndexError
  else match l !! Z.to_nat j' with
       | Some x => Ok x
       | None => Raise IndexError
       end.

(** [l[j] = x], with the same index rule. *)
Definition setitem {A} (l : list A) (j : Z) (x : A) : result (list A) :=
  let n := Z.of_nat (length l) in
  let j' := if j <? 0 then j + n else j in
  if (j' <? 0) || (n <=? j') then Raise IndexError
  else Ok (<[Z.to_nat j' := x]> l).

(** [[x] * n]: the empty list when [n <= 0]. *)
Definition list_mul {A} (x : A) (n : Z) : list A := replicate (Z.to_nat n) x.

(** [for i in range(n): s = body i s], stopping at the first exception. *)
Fixpoint for_in {S} (idx : list nat) (body : nat -> S -> result S) (s : S)
  : result S :=
  match idx with
  | [] => Ok s
  | i :: idx' => s' ← body i s; for_in idx' body s'
  end.

Definition for_range {S} (n : nat) (body : nat -> S -> result S) (s : S)
  : result S :=
  for_in (seq 0 n) body s.

(** Comparisons of floats, as booleans. *)
Definition leb (x y : Qc) : bool := Qle_bool x y.
Definition ltb (x y : Qc) : bool := negb (Qle_bool y x).

(** [int(x)] on a float: truncation toward zero. *)
Definition int (x : Qc) : Z := Z.quot (Qnum x) (Zpos (Qden x)).

(** [round(x)] on a float: the nearest integer, ties to the even one. *)
Definition round (x : Qc) : Z :=
  let f := Qfloor x in
  match (x - Qc_of_Z f ?= Q2Qc (1 # 2))%Qc with
  | Lt => f
  | Gt => f + 1
  | Eq => if Z.even f then f else f + 1
  end.

(** [i / m] on integers: true division. *)
Definition truediv (i m : Z) : result Qc :=
  if m =? 0 then Raise ZeroDivisionError
  else Ok (Qc_of_Z i / Qc_of_Z m)%Qc.

(** [x ** n] for an integer [n]; the module only calls it with [n >= 1]. *)
Definition pow (x : Qc) (n : Z) : Qc := (x ^ Z.to_nat n)%Qc.

(** [min(a, b)] and [max(a, b)] return their first argument unless the
    second is strictly smaller (resp. larger). *)
Definition min (a b : Qc) : Qc := if ltb b a then b else a.
Definition max (a b : Qc) : Qc := if ltb a b then b else a.

(** [s[-n:]] on a string: the last [n] characters, or all of [s] when
    it is shorter. *)
Definition last_chars (n : nat) (s : string) : string :=
  let l := String.length s in
  String.substring (l - n) (Nat.min n l) s.

(** [struct.pack('<h', v)]: two bytes, little-endian two's complement;
    [struct.error] when [v] is not a signed 16-bit integer. *)
Definition pack_h (v : Z) : result (list Z) :=
  if (v <? - 2 ^ 15) || (2 ^ 15 <=? v) then Raise StructError
  else Ok [Z.land v 255; Z.land (Z.shiftr v 8) 255].

(** [struct.unpack('<h', bs)[0]]: [struct.error] unless [bs] has
    exactly two bytes. *)
Definition unpack_h (bs : list Z) : result Z :=
  match bs with
  | [b0; b1] =>
      let u := Z.lor b0 (Z.shiftl b1 8) in
      Ok (if 2 ^ 15 <=? u then u - 2 ^ 16 else u)
  | _ => Raise StructError
  end.

End Py.

Import Py.

(** ** Sounds *)

Record sound : Type := Sound { rate : Z; left : list Qc; right : list Qc }.

(** The invariant of the data model: both channels have the same length. *)
Definition well_formed (s : sound) : Prop := length (left s) = length (right s).

(** ** The [wave] library

    What [wave] stores in a file: the header fields and the frames'
    bytes.  The bytes of the header itself are the library's business. *)

Module Wave.

Record wave_file : Type := WaveFile {
  nchannels : Z;
  sampwidth : Z;
  framerate : Z;
  nframes : nat;
  frames : list Z
}.

(** A file is a wave file or something [wave.open] rejects. *)
Inductive file : Type :=
| IsWave (w : wave_file)
| NotWave.

(** What the program did to the file system, in order. *)
Inductive event : Type :=
| EvOpen (filename : string)
| EvGetparams
| EvReadframes (n : Z).

(** A computation that touches files: the events it performed, and
    its outcome. *)
Definition io (A : Type) : Type := list event * result A.

Global Instance io_ret : MRet io := fun A a => ([], Ok a).
Global Instance io_bind : MBind io := fun A B k m =>
  match m with
  | (t, Ok a) => let '(t', b) := k a in (t ++ t', b)
  | (t, Raise e) => (t, Raise e)
  end.

Definition pure {A} (m : result A) : io A := ([], m).
Definition assert (c : bool) (msg : string) : io unit :=
  pure (if c then Ok tt else Raise (AssertionError msg)).

(** An open reader: the file and the frames not read yet. *)
Record wave_read : Type := WaveRead { header : wave_file; rest : list Z }.

Definition open_r (fs : gmap string file) (filename : string) : io wave_read :=
  ([EvOpen filename],
   match fs !! filename with
   | None => Raise FileNotFoundError
   | Some NotWave => Raise WaveError
   | Some (IsWave w) => Ok (WaveRead w (frames w))
   end).

Definition getparams (f : wave_read) : io (Z * Z * Z * nat) :=
  ([EvGetparams],
   Ok (nchannels (header f), sampwidth (header f), framerate (header f),
       nframes (header f))).

(** [f.readframes(n)]: the next [n] frames' bytes, fewer at the end of
    the data. *)
Definition readframes (f : wave_read) (n : Z) : io (list Z * wave_read) :=
  let size := Z.to_nat (n * (nchannels (header f) * sampwidth (header f))) in
  ([EvReadframes n],
   Ok (take size (rest f), WaveRead (header f) (drop size (rest f)))).

(** [for i in range(n)] in [io]. *)
Fixpoint io_for_in {S} (idx : list nat) (body : nat -> S -> io S) (s : S) : io S :=
  match idx with
  | [] => mret s
  | i :: idx' => s' ← body i s; io_for_in idx' body s'
  end.


End Wave.

Import Wave.

(** ** Helper functions *)

Definition multiply_list (input_list : list Qc) (number : Qc) : list Qc :=
  fold_left (fun output i => output ++ [(i * number)%Qc]) input_list [].

(** ** Loading and writing functions *)

Definition wav_msg : string := "Only .WAV files are supported".
Definition bits_msg : string := "Only 16-bit .WAV files are supported".

(** The numeric map of decoding: [i/(2**15)]. *)
Definition decode_sample (i : Z) : Qc := (Qc_of_Z i / Qc_of_Z (2 ^ 15))%Qc.

Definition load_body (chan : Z) (i : nat)
    (st : wave_read * list Z * list Z) : io (wave_read * list Z * list Z) :=
  let '(f, l, r) := st in
  '(frame, f) ← readframes f 1;
  if chan =? 2 then
    a ← pure (unpack_h (take 2 frame));
    b ← pure (unpack_h (drop 2 frame));
    mret (f, l ++ [a], r ++ [b])
  else
    datum ← pure (unpack_h frame);
    mret (f, l ++ [datum], r ++ [datum]).

Definition load_audio (fs : gmap string file) (filename : string) : io sound :=
  _ ← assert (String.eqb (last_chars 4 filename) ".wav") wav_msg;
  f ← open_r fs filename;
  '(chan, bd, soundrate, count) ← getparams f;
  _ ← assert (bd =? 2) bits_msg;
  '(_, l, r) ← io_for_in (seq 0 count) (load_body chan) (f, [], []);
  let l := map decode_sample l in
  let r := map decode_sample r in
  mret {| rate := soundrate; left := l; right := r |}.

(** The numeric map of encoding:
    [int(max(-1, min(1, x)) * (2**15-1))]. *)
Definition encode_sample (x : Qc) : Z :=
  int (max (-1) (min 1 x) * Qc_of_Z (2 ^ 15 - 1))%Qc.




(** ** Edit functions *)

Definition backwards (s : sound) : sound :=
  {| rate := rate s; left := reverse (left s); right := reverse (right s) |}.

Definition rate_msg : string := "Sound rates must be the same".
Definition proportion_msg : string :=
  "Proportion must be a real number between 0 and 1".

Definition mix_body (sound1 sound2 : sound) (p : Qc) (i : nat)
    (lr : list Qc * list Qc) : result (list Qc * list Qc) :=
  let '(l, r) := lr in
  a ← getitem (left sound1) (Z.of_nat i);
  b ← getitem (left sound2) (Z.of_nat i);
  let l := l ++ [(p * a + (1 - p) * b)%Qc] in
  c ← getitem (right sound1) (Z.of_nat i);
  d ← getitem (right sound2) (Z.of_nat i);
  let r := r ++ [(p * c + (1 - p) * d)%Qc] in
  Ok (l, r).

Definition mix (sound1 sound2 : sound) (p : Qc) : result sound :=
  if negb (rate sound1 =? rate sound2) then Raise (AssertionError rate_msg)
  else if negb (leb 0 p && leb p 1) then Raise (AssertionError proportion_msg)
  else
    let samples1 := length (left sound1) in
    let samples2 := length (left sound2) in
    let samples := if (samples1 <=? samples2)%nat then samples1 else samples2 in
    '(l, r) ← for_range samples (mix_body sound1 sound2 p) ([], []);
    Ok {| rate := rate sound1; left := l; right := r |}.

Definition remove_vocals_body (s : sound) (i : nat) (new : list Qc)
    : result (list Qc) :=
  a ← getitem (left s) (Z.of_nat i);
  b ← getitem (right s) (Z.of_nat i);
  Ok (new ++ [(a - b)%Qc]).

Definition remove_vocals (s : sound) : result sound :=
  new ← for_range (length (left s)) (remove_vocals_body s) [];
  Ok {| rate := rate s; left := new; right := new |}.

Definition echo_step (sample_delay num : Z) (left_echo right_echo : list Qc)
    (i : nat) (lr : list Qc * list Qc) : result (list Qc * list Qc) :=
  let '(l, r) := lr in
  if sample_delay * (1 + num) <=? Z.of_nat i then
    a ← getitem l (Z.of_nat i);
    b ← getitem left_echo (Z.of_nat i - sample_delay * (1 + num));
    l ← setitem l (Z.of_nat i) (a + b)%Qc;
    c ← getitem r (Z.of_nat i);
    d ← getitem right_echo (Z.of_nat i - sample_delay * (1 + num));
    r ← setitem r (Z.of_nat i) (c + d)%Qc;
    Ok (l, r)
  else Ok (l, r).

(** One turn of the [while] loop of [echo]. *)
Definition echo_body (s : sound) (sample_delay : Z) (scale : Qc) (num : Z)
    (lr : list Qc * list Qc) : result (list Qc * list Qc) :=
  let '(l, r) := lr in
  let l := l ++ list_mul 0%Qc sample_delay in
  let r := r ++ list_mul 0%Qc sample_delay in
  let left_echo := multiply_list (left s) (pow scale (1 + num)) in
  let right_echo := multiply_list (right s) (pow scale (1 + num)) in
  for_range (length l) (echo_step sample_delay num left_echo right_echo) (l, r).

(** [while num < num_echos: ...; num = num + 1] *)
Equations? echo_while (s : sound) (num_echos sample_delay : Z) (scale : Qc)
    (num : Z) (lr : list Qc * list Qc) : result (list Qc * list Qc)
    by wf (Z.to_nat (num_echos - num)) lt :=
  echo_while s num_echos sample_delay scale num lr
    with Z_lt_dec num num_echos := {
    | Specif.left _ with echo_body s sample_delay scale num lr := {
        | Ok lr' => echo_while s num_echos sample_delay scale (num + 1) lr'
        | Raise e => Raise e }
    | Specif.right _ => Ok lr }.
Proof. lia. Qed.

Definition echo (s : sound) (num_echos : Z) (delay scale : Qc) : result sound :=
  let sample_delay := round (delay * Qc_of_Z (rate s))%Qc in
  '(l, r) ← echo_while s num_echos sample_delay scale 0 (left s, right s);
  Ok {| rate := rate s; left := l; right := r |}.

Definition pan_body (left_to_right : bool) (n : Z) (i : nat)
    (lr : list Qc * list Qc) : result (list Qc * list Qc) :=
  let '(l, r) := lr in
  if left_to_right then
    a ← getitem l (Z.of_nat i);
    f ← truediv (Z.of_nat i) (n - 1);
    l ← setitem l (Z.of_nat i) (a * (1 - f))%Qc;
    b ← getitem r (Z.of_nat i);
    f ← truediv (Z.of_nat i) (n - 1);
    r ← setitem r (Z.of_nat i) (b * f)%Qc;
    Ok (l, r)
  else
    a ← getitem l (Z.of_nat i);
    f ← truediv (Z.of_nat i) (n - 1);
    l ← setitem l (Z.of_nat i) (a * f)%Qc;
    b ← getitem r (Z.of_nat i);
    f ← truediv (Z.of_nat i) (n - 1);
    r ← setitem r (Z.of_nat i) (b * (1 - f))%Qc;
    Ok (l, r).

Definition pan (s : sound) (left_to_right : bool) : result sound :=
  let n := length (left s) in
  '(l, r) ← for_range n (pan_body left_to_right (Z.of_nat n)) (left s, right s);
  Ok {| rate := rate s; left := l; right := r |}.

(** * The vocabulary of the properties *)

(** The blend of two samples. *)
Definition blend (p x y : Qc) : Qc := (p * x + (1 - p) * y)%Qc.

(** One half, and the sounds of the worked examples. *)
Definition half : Qc := Q2Qc (1 # 2).
Definition ones : sound := Sound 100 [1%Qc; 1%Qc] [1%Qc; 1%Qc].
Definition zeros : sound := Sound 100 [0%Qc; 0%Qc] [0%Qc; 0%Qc].
Definition centred : sound :=
  Sound 8000 [1%Qc; half; (- half)%Qc] [1%Qc; half; (- half)%Qc].
Definition ramp : sound := Sound 8000 [1%Qc; 1%Qc; 1%Qc] [1%Qc; 1%Qc; 1%Qc].
Definition decaying : sound :=
  Sound 2 [1%Qc; half; Q2Qc (1 # 4)] [1%Qc; half; (- half)%Qc].

(** The fraction [i/(n-1)] and the gains [pan] applies at index [i]. *)
Definition fraction (n : Z) (i : nat) : Qc :=
  (Qc_of_Z (Z.of_nat i) / Qc_of_Z (n - 1))%Qc.
Definition left_gain (left_to_right : bool) (n : Z) (i : nat) : Qc :=
  if left_to_right then (1 - fraction n i)%Qc else fraction n i.
Definition right_gain (left_to_right : bool) (n : Z) (i : nat) : Qc :=
  if left_to_right then fraction n i else (1 - fraction n i)%Qc.

(** A channel after the first [i] turns of a loop that replaces sample
    [j] by [f j] of it at turn [j]. *)
Definition upto (f : nat -> Qc -> Qc) (i : nat) (l : list Qc) : list Qc :=
  imap (fun j x => if decide (j < i)%nat then f j x else x) l.




(** The clamp of [write_wav]: [max(-1, min(1, x))]. *)
Definition clamp (x : Qc) : Qc := max (-1) (min 1 x).

(** The full-scale integer, [2**15 - 1]. *)
Definition full_scale : Qc := Qc_of_Z (2 ^ 15 - 1).


(** [z] is a nearest integer of [y]: they are at most one half apart. *)
Definition nearest_integer (y : Qc) (z : Z) : Prop :=
  (- half <= y - Qc_of_Z z)%Qc /\ (y - Qc_of_Z z <= half)%Qc.

(** The two bytes of a 16-bit integer, low byte first. *)
Definition bytes2 (v : Z) : list Z := [v `mod` 256; (v / 256) `mod` 256].



(** A stereo 16-bit file of two frames. *)
Definition two_frames : wave_file :=
  {| nchannels := 2; sampwidth := 2; framerate := 8000; nframes := 2;
     frames := [0; 64; 0; 192; 255; 127; 1; 128] |}.

(** A sound with its two channels exchanged. *)
Definition swap (s : sound) : sound :=
  {| rate := rate s; left := right s; right := left s |}.

(** A sound of [n] zero samples per channel. *)
Definition silence (r : Z) (n : nat) : sound :=
  {| rate := r; left := replicate n 0%Qc; right := replicate n 0%Qc |}.

(** The state of the reading loop of [load_audio] before turn [k]: the
    reader is on file [w], what is left to read are bytes, and each
    channel holds [k] signed 16-bit integers. *)
Definition loading (w : wave_file) (k : nat)
    (st : wave_read * list Z * list Z) : Prop :=
  header st.1.1 = w /\ Forall (fun b => 0 <= b < 256) (rest st.1.1)
  /\ length st.1.2 = k /\ length st.2 = k
  /\ Forall (fun v => - 2 ^ 15 <= v < 2 ^ 15) st.1.2
  /\ Forall (fun v => - 2 ^ 15 <= v < 2 ^ 15) st.2.

(** * Properties *)

(** ** The runtime *)

Section Runtime.
Context {A : Type}.
Implicit Types (l : list A) (i : nat) (x : A).

Lemma getitem_lookup l i x :
  l !! i = Some x -> getitem l (Z.of_nat i) = Ok x.
Proof.
  intros H. pose proof (lookup_lt_Some _ _ _ H) as Hlt.
  unfold getitem.
  replace (Z.of_nat i <? 0) with false by lia.
  replace ((Z.of_nat i <? 0) || (Z.of_nat (length l) <=? Z.of_nat i))
    with false by lia.
  by rewrite Nat2Z.id, H.
Qed.


Lemma setitem_insert l i x :
  (i < length l)%nat -> setitem l (Z.of_nat i) x = Ok (<[i := x]> l).
Proof.
  intros H. unfold setitem.
  replace (Z.of_nat i <? 0) with false by lia.
  replace ((Z.of_nat i <? 0) || (Z.of_nat (length l) <=? Z.of_nat i))
    with false by lia.
  by rewrite Nat2Z.id.
Qed.
End Runtime.

(** The rule of the [for] loop: an invariant [P i s], true of the state
    before turn [i], that every turn re-establishes without raising,
    holds after the last turn. *)
Lemma for_in_seq_inv {S} (P : nat -> S -> Prop) body (a n : nat) (s : S) :
  P a s ->
  (forall i s, (a <= i < a + n)%nat -> P i s ->
     exists s', body i s = Ok s' /\ P (Datatypes.S i) s') ->
  exists s', for_in (seq a n) body s = Ok s' /\ P (a + n)%nat s'.
Proof.
  revert a s. induction n as [|n IH]; intros a s H0 Hstep; simpl.
  - exists s. by rewrite Nat.add_0_r.
  - destruct (Hstep a s) as (s1 & -> & H1); [lia | done |]. simpl.
    destruct (IH (Datatypes.S a) s1) as (s2 & -> & H2); [done | |].
    + intros i t Hi. apply Hstep. lia.
    + exists s2. split; [done |]. by replace (a + Datatypes.S n)%nat
        with (Datatypes.S a + n)%nat by lia.
Qed.

Lemma for_range_inv {S} (P : nat -> S -> Prop) body (n : nat) (s : S) :
  P 0%nat s ->
  (forall i s, (i < n)%nat -> P i s ->
     exists s', body i s = Ok s' /\ P (Datatypes.S i) s') ->
  exists s', for_range n body s = Ok s' /\ P n s'.
Proof.
  intros H0 Hstep. apply (for_in_seq_inv P body 0 n s H0).
  intros i t Hi. apply Hstep. lia.
Qed.

(** Comparisons. *)
Lemma leb_le (x y : Qc) : leb x y = true <-> (x <= y)%Qc.
Proof. unfold leb. apply Qle_bool_iff. Qed.

Lemma ltb_lt (x y : Qc) : ltb x y = true <-> (x < y)%Qc.
Proof.
  unfold ltb. rewrite negb_true_iff, <- not_true_iff_false.
  rewrite (leb_le y x). symmetry. apply Qclt_nge.
Qed.

(** [round] returns an integer at most one half away, the even one of
    the two on a tie. *)
Example round_ties :
  round (Q2Qc (5 # 2)) = 2 /\ round (Q2Qc (7 # 2)) = 4
  /\ round (Q2Qc (- 5 # 2)) = - 2 /\ round (Q2Qc (- 1 # 3)) = 0
  /\ round (Q2Qc (8 # 3)) = 3.
Proof. repeat split; reflexivity. Qed.

(** [int] cuts the fraction off, toward zero. *)
Example int_toward_zero :
  int (Q2Qc (7 # 2)) = 3 /\ int (Q2Qc (- 7 # 2)) = - 3 /\ int (Q2Qc (- 1 # 3)) = 0.
Proof. repeat split; reflexivity. Qed.

(** A closed comparison or equation of rationals, by evaluation. *)
Ltac qc_closed :=
  lazymatch goal with
  | |- @eq Qc _ _ => apply Qc_is_canon; vm_compute; reflexivity
  | |- (_ <= _)%Qc => unfold Qcle; vm_compute; discriminate
  | |- (_ < _)%Qc => unfold Qclt; vm_compute; reflexivity
  | |- _ /\ _ => split; qc_closed
  end.

(** ** [backwards] *)

Lemma backwards_rate s : rate (backwards s) = rate s.
Proof. reflexivity. Qed.

Lemma backwards_backwards s : backwards (backwards s) = s.
Proof.
  destruct s as [n l r]. unfold backwards; simpl.
  by rewrite !reverse_involutive.
Qed.

(** ** [mix] *)

Lemma zip_with_snoc {A B C} (f : A -> B -> C) (l : list A) (k : list B) i x y :
  l !! i = Some x -> k !! i = Some y ->
  zip_with f (take (S i) l) (take (S i) k)
  = zip_with f (take i l) (take i k) ++ [f x y].
Proof.
  intros Hx Hy. rewrite (take_S_r _ _ _ Hx), (take_S_r _ _ _ Hy).
  rewrite zip_with_app; [done |].
  rewrite !length_take.
  apply lookup_lt_Some in Hx, Hy. lia.
Qed.

Lemma mix_loop s1 s2 p n :
  well_formed s1 -> well_formed s2 ->
  (n <= length (left s1))%nat -> (n <= length (left s2))%nat ->
  for_range n (mix_body s1 s2 p) ([], [])
  = Ok (zip_with (blend p) (take n (left s1)) (take n (left s2)),
        zip_with (blend p) (take n (right s1)) (take n (right s2))).
Proof.
  intros W1 W2 H1 H2.
  destruct (for_range_inv
    (fun i lr => lr = (zip_with (blend p) (take i (left s1)) (take i (left s2)),
                       zip_with (blend p) (take i (right s1)) (take i (right s2))))
    (mix_body s1 s2 p) n ([], [])) as (lr & -> & ->); [done | | done].
  intros i lr Hi ->.
  destruct (lookup_lt_is_Some_2 (left s1) i) as [a Ha]; [lia |].
  destruct (lookup_lt_is_Some_2 (left s2) i) as [b Hb]; [lia |].
  destruct (lookup_lt_is_Some_2 (right s1) i) as [c Hc]; [rewrite <- W1; lia |].
  destruct (lookup_lt_is_Some_2 (right s2) i) as [d Hd]; [rewrite <- W2; lia |].
  eexists. split; [| reflexivity].
  unfold mix_body.
  rewrite (getitem_lookup _ _ _ Ha), (getitem_lookup _ _ _ Hb),
    (getitem_lookup _ _ _ Hc), (getitem_lookup _ _ _ Hd). simpl.
  by rewrite (zip_with_snoc _ _ _ _ _ _ Ha Hb), (zip_with_snoc _ _ _ _ _ _ Hc Hd).
Qed.

(** What [mix] returns on sounds of one rate and a proportion in range. *)
Lemma mix_ok s1 s2 p :
  well_formed s1 -> well_formed s2 ->
  rate s1 = rate s2 -> (0 <= p)%Qc -> (p <= 1)%Qc ->
  mix s1 s2 p
  = Ok {| rate := rate s1;
          left := zip_with (blend p) (left s1) (left s2);
          right := zip_with (blend p) (right s1) (right s2) |}.
Proof.
  intros W1 W2 Hr H0 H1. unfold mix.
  apply Z.eqb_eq in Hr as ->. apply leb_le in H0 as ->, H1 as ->. simpl.
  rewrite mix_loop; [| done | done | |]; simpl.
  - f_equal. f_equal.
    + apply zip_with_take_both'; case_match; lia.
    + apply zip_with_take_both'; rewrite <- W1, <- W2; case_match; lia.
  - case_match; [lia |]. apply Nat.leb_gt in H. lia.
  - case_match; [| lia]. apply Nat.leb_le in H. lia.
Qed.

Lemma zip_with_left_take {A B} (f : A -> B -> A) (l : list A) (k : list B) :
  (forall x y, f x y = x) ->
  zip_with f l k = take (length l `min` length k) l.
Proof.
  intros Hf. revert k. induction l as [|x l IH]; intros [|y k]; simpl; try done.
  by rewrite Hf, IH.
Qed.

Lemma zip_with_right_take {A B} (f : A -> B -> B) (l : list A) (k : list B) :
  (forall x y, f x y = y) ->
  zip_with f l k = take (length l `min` length k) k.
Proof.
  intros Hf. revert k. induction l as [|x l IH]; intros [|y k]; simpl; try done.
  by rewrite Hf, IH.
Qed.

Lemma blend_1 x y : blend 1 x y = x.
Proof. unfold blend. ring. Qed.

Lemma blend_0 x y : blend 0 x y = y.
Proof. unfold blend. ring. Qed.

(** C5: on two well-formed sounds of one rate and a proportion [p] in
    [[0, 1]], [mix] returns a sound of that rate whose channels have the
    length of the shorter input and hold, at every index below that
    length, [p*a + (1-p)*b] of the inputs' samples; with [p = 1] it is
    the first sound cut to that length, with [p = 0] the second. *)
Theorem mix_blends (a b : sound) (p : Qc) :
  well_formed a -> well_formed b ->
  rate a = rate b -> (0 <= p)%Qc /\ (p <= 1)%Qc ->
  let m := (length (left a) `min` length (left b))%nat in
  exists out,
    mix a b p = Ok out /\ rate out = rate a
    /\ length (left out) = m /\ length (right out) = m
    /\ (forall i, (i < m)%nat ->
         exists x y x' y',
           left a !! i = Some x /\ left b !! i = Some y
           /\ right a !! i = Some x' /\ right b !! i = Some y'
           /\ left out !! i = Some (p * x + (1 - p) * y)%Qc
           /\ right out !! i = Some (p * x' + (1 - p) * y')%Qc)
    /\ (p = 1%Qc -> left out = take m (left a) /\ right out = take m (right a))
    /\ (p = 0%Qc -> left out = take m (left b) /\ right out = take m (right b)).
Proof.
  intros Wa Wb Hr [H0 H1] m. eexists. split; [by apply mix_ok |]. simpl.
  assert (length (right a) `min` length (right b) = m)%nat as Hm
    by (unfold m; by rewrite <- Wa, <- Wb).
  split; [done |]. split; [apply length_zip_with |].
  split; [by rewrite length_zip_with |].
  split; [| split].
  - intros i Hi.
    destruct (lookup_lt_is_Some_2 (left a) i) as [x Hx]; [lia |].
    destruct (lookup_lt_is_Some_2 (left b) i) as [y Hy]; [lia |].
    destruct (lookup_lt_is_Some_2 (right a) i) as [x' Hx']; [lia |].
    destruct (lookup_lt_is_Some_2 (right b) i) as [y' Hy']; [lia |].
    exists x, y, x', y'. rewrite !lookup_zip_with, Hx, Hy, Hx', Hy'. done.
  - intros ->. rewrite <- Hm at 2.
    split; apply zip_with_left_take, blend_1.
  - intros ->. rewrite <- Hm at 2.
    split; apply zip_with_right_take, blend_0.
Qed.

Lemma mix_rate_mismatch a b p :
  rate a <> rate b -> mix a b p = Raise (AssertionError rate_msg).
Proof. intros Hr. unfold mix. by apply Z.eqb_neq in Hr as ->. Qed.

Lemma mix_bad_proportion a b p :
  rate a = rate b -> (p < 0)%Qc \/ (1 < p)%Qc ->
  mix a b p = Raise (AssertionError proportion_msg).
Proof.
  intros Hr Hp. unfold mix. apply Z.eqb_eq in Hr as ->. simpl.
  destruct (leb 0 p) eqn:E0; [| done].
  destruct (leb p 1) eqn:E1; [| done].
  apply leb_le in E0, E1.
  destruct Hp as [Hp | Hp]; by apply Qclt_not_le in Hp.
Qed.

(** C6: on well-formed sounds, [mix] raises the rate assertion exactly
    when the rates differ; with equal rates it raises the proportion
    assertion exactly when [p] is outside [[0, 1]]; and it returns a
    sound exactly when the rates agree and [p] is in range.  A call
    that raises returns no sound. *)
Theorem mix_errors (a b : sound) (p : Qc) :
  well_formed a -> well_formed b ->
  (mix a b p = Raise (AssertionError rate_msg) <-> rate a <> rate b)
  /\ (rate a = rate b ->
      (mix a b p = Raise (AssertionError proportion_msg)
       <-> (p < 0)%Qc \/ (1 < p)%Qc))
  /\ ((exists out, mix a b p = Ok out)
      <-> rate a = rate b /\ (0 <= p)%Qc /\ (p <= 1)%Qc).
Proof.
  intros Wa Wb.
  destruct (decide (rate a = rate b)) as [Hr | Hr].
  - destruct (Qclt_le_dec p 0) as [Hlo | Hlo];
      [| destruct (Qclt_le_dec 1 p) as [Hhi | Hhi]].
    + rewrite (mix_bad_proportion a b p Hr (or_introl Hlo)).
      split; [| split].
      * split; [discriminate | done].
      * intros _. split; [by left | done].
      * split; [intros [out ?]; discriminate |].
        intros (_ & H0 & _). by apply Qcle_not_lt in H0.
    + rewrite (mix_bad_proportion a b p Hr (or_intror Hhi)).
      split; [| split].
      * split; [discriminate | done].
      * intros _. split; [by right | done].
      * split; [intros [out ?]; discriminate |].
        intros (_ & _ & H1). by apply Qcle_not_lt in H1.
    + rewrite (mix_ok a b p Wa Wb Hr Hlo Hhi).
      split; [| split].
      * split; [discriminate | done].
      * intros _. split; [discriminate |].
        intros [H | H]; by apply Qclt_not_le in H.
      * split; [done | by eexists].
  - rewrite (mix_rate_mismatch a b p Hr).
    split; [| split].
    + done.
    + done.
    + split; [intros [out ?]; discriminate | by intros (? & _)].
Qed.

(** C9: [backwards] keeps the rate and puts each channel in reverse
    order (sample [i] of the result is sample [n - 1 - i] of the input),
    and applying it twice gives the sound back, the empty one included. *)
Theorem backwards_involution (s : sound) :
  rate (backwards s) = rate s
  /\ left (backwards s) = rev (left s)
  /\ right (backwards s) = rev (right s)
  /\ (forall i,
        left (backwards s) !! i
        = if decide (i < length (left s))%nat
          then left s !! (length (left s) - S i)%nat else None)
  /\ (forall i,
        right (backwards s) !! i
        = if decide (i < length (right s))%nat
          then right s !! (length (right s) - S i)%nat else None)
  /\ backwards (backwards s) = s
  /\ backwards (Sound (rate s) [] []) = Sound (rate s) [] [].
Proof.
  split; [done |].
  split; [symmetry; apply rev_alt |]. split; [symmetry; apply rev_alt |].
  split; [| split; [| split; [apply backwards_backwards | done]]].
  - intros i. simpl. case_decide as Hi.
    + by apply reverse_lookup.
    + apply lookup_ge_None_2. rewrite length_reverse. lia.
  - intros i. simpl. case_decide as Hi.
    + by apply reverse_lookup.
    + apply lookup_ge_None_2. rewrite length_reverse. lia.
Qed.

Lemma mix_blends_witness :
  exists out, mix ones zeros half = Ok out /\ rate out = 100
              /\ left out !! 0%nat = Some (half * 1 + (1 - half) * 0)%Qc.
Proof.
  destruct (mix_blends ones zeros half) as (out & E & Hr & _ & _ & Hi & _);
    [reflexivity | reflexivity | reflexivity | qc_closed |].
  exists out. split; [exact E |]. split; [exact Hr |].
  destruct (Hi 0%nat) as (x & y & _ & _ & Hx & Hy & _ & _ & Hl & _);
    [simpl; lia |].
  simpl in Hx, Hy. injection Hx as <-. injection Hy as <-. exact Hl.
Defined.

(** The specification's scenario: equal parts of all-one and all-zero. *)
Example mix_half :
  mix ones zeros half = Ok (Sound 100 [half; half] [half; half]).
Proof.
  rewrite mix_ok; [| reflexivity | reflexivity | reflexivity | qc_closed ..].
  simpl. assert (blend half 1 0 = half) as -> by qc_closed. reflexivity.
Qed.

Lemma mix_errors_witness :
  (mix ones (Sound 8000 [] []) half = Raise (AssertionError rate_msg))
  /\ (mix ones zeros (1 + 1)%Qc = Raise (AssertionError proportion_msg))
  /\ (exists out, mix ones zeros half = Ok out).
Proof.
  split; [| split].
  - apply (mix_errors ones (Sound 8000 [] []) half); [reflexivity .. | discriminate].
  - apply (mix_errors ones zeros (1 + 1)%Qc); [reflexivity .. |].
    right. qc_closed.
  - apply (mix_errors ones zeros half); [reflexivity .. |].
    split; [reflexivity | qc_closed].
Defined.

(** ** [remove_vocals] *)

Lemma remove_vocals_loop s n :
  well_formed s -> (n <= length (left s))%nat ->
  for_range n (remove_vocals_body s) []
  = Ok (zip_with Qcminus (take n (left s)) (take n (right s))).
Proof.
  intros W Hn.
  destruct (for_range_inv
    (fun i new => new = zip_with Qcminus (take i (left s)) (take i (right s)))
    (remove_vocals_body s) n []) as (new & -> & ->); [done | | done].
  intros i new Hi ->.
  destruct (lookup_lt_is_Some_2 (left s) i) as [a Ha]; [lia |].
  destruct (lookup_lt_is_Some_2 (right s) i) as [b Hb]; [rewrite <- W; lia |].
  eexists. split; [| reflexivity].
  unfold remove_vocals_body.
  rewrite (getitem_lookup _ _ _ Ha), (getitem_lookup _ _ _ Hb). simpl.
  by rewrite (zip_with_snoc _ _ _ _ _ _ Ha Hb).
Qed.

Lemma remove_vocals_ok s :
  well_formed s ->
  remove_vocals s
  = Ok {| rate := rate s;
          left := zip_with Qcminus (left s) (right s);
          right := zip_with Qcminus (left s) (right s) |}.
Proof.
  intros W. unfold remove_vocals.
  rewrite remove_vocals_loop; [| done | done]. simpl.
  by rewrite (take_ge (left s)), (take_ge (right s)) by (rewrite <- ?W; lia).
Qed.

Lemma zip_with_minus_diag (l : list Qc) :
  zip_with Qcminus l l = replicate (length l) 0%Qc.
Proof.
  induction l as [|x l IH]; simpl; [done |].
  rewrite IH. f_equal. ring.
Qed.

(** C8: on a well-formed sound, [remove_vocals] returns a sound of the
    same rate and length whose two channels are one and the same
    sequence, sample [i] being [left[i] - right[i]]; when the input's
    channels are equal the result is all zeros. *)
Theorem remove_vocals_difference (s : sound) :
  well_formed s ->
  exists out,
    remove_vocals s = Ok out /\ rate out = rate s
    /\ length (left out) = length (left s)
    /\ right out = left out
    /\ (forall i x y, left s !! i = Some x -> right s !! i = Some y ->
          left out !! i = Some (x - y)%Qc)
    /\ (left s = right s -> left out = replicate (length (left s)) 0%Qc).
Proof.
  intros W. eexists. split; [by apply remove_vocals_ok |]. simpl.
  split; [done |]. split; [rewrite length_zip_with; rewrite <- W; lia |].
  split; [done |]. split.
  - intros i x y Hx Hy. by rewrite lookup_zip_with, Hx, Hy.
  - intros <-. apply zip_with_minus_diag.
Qed.

Lemma remove_vocals_difference_witness :
  exists out, remove_vocals centred = Ok out
              /\ left out = [0%Qc; 0%Qc; 0%Qc] /\ right out = left out.
Proof.
  destruct (remove_vocals_difference centred) as (out & E & _ & _ & Hlr & _ & Hz);
    [reflexivity |].
  exists out. split; [exact E |]. split; [| exact Hlr].
  apply Hz. reflexivity.
Defined.

(** The specification's scenario. *)
Example remove_vocals_centred :
  remove_vocals centred = Ok (Sound 8000 [0; 0; 0]%Qc [0; 0; 0]%Qc).
Proof.
  rewrite remove_vocals_ok by reflexivity.
  unfold centred; cbn [rate left right].
  by rewrite zip_with_minus_diag.
Qed.

(** ** [pan] *)

Lemma upto_lookup f i l j :
  upto f i l !! j = if decide (j < i)%nat then f j <$> l !! j else l !! j.
Proof.
  unfold upto. rewrite list_lookup_imap. cbv beta.
  destruct (decide (j < i)%nat); by destruct (l !! j).
Qed.

Lemma upto_0 f l : upto f 0 l = l.
Proof.
  apply list_eq. intros j. rewrite upto_lookup.
  destruct (decide (j < 0)%nat); [lia | done].
Qed.

Lemma upto_lookup_at f i l : upto f i l !! i = l !! i.
Proof.
  rewrite upto_lookup. destruct (decide (i < i)%nat); [lia | done].
Qed.

Lemma upto_length f i l : length (upto f i l) = length l.
Proof. apply length_imap. Qed.

Lemma upto_step f i l a :
  l !! i = Some a -> <[i := f i a]> (upto f i l) = upto f (S i) l.
Proof.
  intros Ha. apply list_eq. intros j.
  destruct (decide (i = j)) as [<- | Hne].
  - rewrite list_lookup_insert_eq
      by (rewrite upto_length; by apply lookup_lt_Some in Ha).
    rewrite upto_lookup, Ha.
    destruct (decide (i < S i)%nat); [done | lia].
  - rewrite list_lookup_insert_ne by done.
    rewrite !upto_lookup.
    destruct (decide (j < i)%nat), (decide (j < S i)%nat); try done; lia.
Qed.

Lemma upto_all f n l : (length l <= n)%nat -> upto f n l = imap f l.
Proof.
  intros Hn. apply list_eq. intros j.
  rewrite upto_lookup, list_lookup_imap.
  destruct (decide (j < n)%nat) as [|Hj]; [done |].
  rewrite lookup_ge_None_2 by lia. done.
Qed.

Lemma pan_body_ok ltr (n : Z) i (l r : list Qc) a b :
  n - 1 <> 0 -> l !! i = Some a -> r !! i = Some b ->
  pan_body ltr n i (l, r)
  = Ok (<[i := (a * left_gain ltr n i)%Qc]> l,
        <[i := (b * right_gain ltr n i)%Qc]> r).
Proof.
  intros Hn Ha Hb. unfold pan_body, truediv.
  apply Z.eqb_neq in Hn as ->.
  rewrite (getitem_lookup _ _ _ Ha), (getitem_lookup _ _ _ Hb).
  destruct ltr; simpl;
    rewrite !setitem_insert by (eapply lookup_lt_Some; eassumption); done.
Qed.

Lemma pan_loop ltr (n : Z) (l r : list Qc) k :
  n - 1 <> 0 -> (k <= length l)%nat -> (k <= length r)%nat ->
  for_range k (pan_body ltr n) (l, r)
  = Ok (upto (fun i x => (x * left_gain ltr n i)%Qc) k l,
        upto (fun i x => (x * right_gain ltr n i)%Qc) k r).
Proof.
  intros Hn Hl Hr.
  destruct (for_range_inv
    (fun i lr => lr = (upto (fun i x => (x * left_gain ltr n i)%Qc) i l,
                       upto (fun i x => (x * right_gain ltr n i)%Qc) i r))
    (pan_body ltr n) k (l, r)) as (lr & -> & ->); [| | done].
  - by rewrite !upto_0.
  - intros i lr Hi ->.
    destruct (lookup_lt_is_Some_2 l i) as [a Ha]; [lia |].
    destruct (lookup_lt_is_Some_2 r i) as [b Hb]; [lia |].
    eexists. split.
    + apply pan_body_ok; [done | |]; by rewrite upto_lookup_at.
    + by rewrite <- (upto_step _ i l a), <- (upto_step _ i r b).
Qed.

Lemma pan_ok s ltr :
  well_formed s -> (2 <= length (left s))%nat ->
  let n := Z.of_nat (length (left s)) in
  pan s ltr
  = Ok {| rate := rate s;
          left := imap (fun i x => (x * left_gain ltr n i)%Qc) (left s);
          right := imap (fun i x => (x * right_gain ltr n i)%Qc) (right s) |}.
Proof.
  intros W Hn n. unfold pan.
  rewrite pan_loop by (rewrite <- ?W; lia). simpl.
  by rewrite !upto_all by (rewrite <- ?W; lia).
Qed.

Lemma fraction_first n : fraction n 0 = 0%Qc.
Proof.
  unfold fraction. change (Z.of_nat 0) with 0.
  rewrite Z2Qc_inj_0. apply Qcmult_0_l.
Qed.

Lemma fraction_last (n : nat) :
  (2 <= n)%nat -> fraction (Z.of_nat n) (n - 1) = 1%Qc.
Proof.
  intros Hn. unfold fraction.
  replace (Z.of_nat (n - 1)) with (Z.of_nat n - 1) by lia.
  apply Qcmult_inv_r. rewrite <- Z2Qc_inj_0. intros H%Z2Qc_inj. lia.
Qed.

(** C7: on a well-formed sound of [n > 1] samples, [pan] returns a sound
    of the same rate and length with [left[i]] scaled by [1 - f] and
    [right[i]] by [f], [f = i/(n-1)] (the two factors exchanged when
    [left_to_right] is false); so panning left to right keeps the first
    left sample and the last right sample and silences the first right
    sample and the last left one. *)
Theorem pan_cross_fade (b : sound) (left_to_right : bool) :
  well_formed b -> (1 < length (left b))%nat ->
  let n := length (left b) in
  let f := fun i : nat => (Qc_of_Z (Z.of_nat i) / Qc_of_Z (Z.of_nat n - 1))%Qc in
  exists out,
    pan b left_to_right = Ok out /\ rate out = rate b
    /\ length (left out) = n /\ length (right out) = n
    /\ (forall i x y, left b !! i = Some x -> right b !! i = Some y ->
          left out !! i
          = Some (x * (if left_to_right then 1 - f i else f i))%Qc
          /\ right out !! i
             = Some (y * (if left_to_right then f i else 1 - f i))%Qc)
    /\ (left_to_right = true ->
          left out !! 0%nat = left b !! 0%nat
          /\ right out !! 0%nat = Some 0%Qc
          /\ left out !! (n - 1)%nat = Some 0%Qc
          /\ right out !! (n - 1)%nat = right b !! (n - 1)%nat).
Proof.
  intros W Hn n f. eexists. split; [apply pan_ok; [done | lia] |].
  cbn [rate left right].
  split; [done |]. split; [apply length_imap |].
  split; [rewrite length_imap; by rewrite <- W |].
  split.
  - intros i x y Hx Hy. rewrite !list_lookup_imap, Hx, Hy.
    unfold left_gain, right_gain. by destruct left_to_right.
  - intros ->.
    destruct (lookup_lt_is_Some_2 (left b) 0) as [x0 H0]; [lia |].
    destruct (lookup_lt_is_Some_2 (right b) 0) as [y0 H0']; [rewrite <- W; lia |].
    destruct (lookup_lt_is_Some_2 (left b) (n - 1)) as [x1 H1]; [lia |].
    destruct (lookup_lt_is_Some_2 (right b) (n - 1)) as [y1 H1'];
      [rewrite <- W; lia |].
    rewrite !list_lookup_imap, H0, H0', H1, H1'.
    unfold left_gain, right_gain. cbn [fmap option_fmap option_map].
    fold n. rewrite fraction_first, (fraction_last n) by lia.
    repeat split; f_equal; ring.
Qed.

Lemma pan_cross_fade_witness :
  exists out, pan ramp true = Ok out
              /\ left out !! 0%nat = Some 1%Qc /\ right out !! 0%nat = Some 0%Qc
              /\ left out !! 2%nat = Some 0%Qc /\ right out !! 2%nat = Some 1%Qc.
Proof.
  destruct (pan_cross_fade ramp true) as (out & E & _ & _ & _ & _ & Hend);
    [reflexivity | simpl; lia |].
  exists out. split; [exact E |].
  destruct (Hend eq_refl) as (H1 & H2 & H3 & H4).
  repeat split; assumption.
Defined.

(** C4, as amended: [pan] divides by zero on every sound whose left
    channel has exactly one sample, in either direction; on a sound
    whose left channel is empty the loop does not run and [pan] returns
    the sound as it is. *)
Theorem pan_degenerate (s : sound) (left_to_right : bool) :
  (length (left s) = 1%nat -> pan s left_to_right = Raise ZeroDivisionError)
  /\ (length (left s) = 0%nat -> pan s left_to_right = Ok s).
Proof.
  destruct s as [n l r]. unfold pan. simpl. split; intros Hl.
  - destruct l as [|a [|? ?]]; try done.
    unfold for_range. simpl. by destruct left_to_right.
  - destruct l; done.
Qed.

Lemma pan_degenerate_witness :
  pan (Sound 8000 [half] [half]) true = Raise ZeroDivisionError
  /\ pan (Sound 8000 [] []) true = Ok (Sound 8000 [] []).
Proof.
  split.
  - apply (pan_degenerate (Sound 8000 [half] [half]) true). reflexivity.
  - apply (pan_degenerate (Sound 8000 [] []) true). reflexivity.
Defined.

(** C4 as stated fails on the empty sound: its length is at most one
    and [pan] returns. *)
Lemma pan_empty_returns :
  (length (left (Sound 8000 [] [])) <= 1)%nat
  /\ pan (Sound 8000 [] []) true = Ok (Sound 8000 [] [])
  /\ ~ (forall s ltr, (length (left s) <= 1)%nat ->
          pan s ltr = Raise ZeroDivisionError).
Proof.
  split; [simpl; lia |]. split; [reflexivity |].
  intros H. specialize (H (Sound 8000 [] []) true). simpl in H.
  discriminate H. lia.
Qed.

(** ** [echo] *)

Lemma multiply_list_fmap l c : multiply_list l c = (fun x => (x * c)%Qc) <$> l.
Proof.
  unfold multiply_list.
  assert (forall acc,
    fold_left (fun output i => output ++ [(i * c)%Qc]) l acc
    = acc ++ ((fun x => (x * c)%Qc) <$> l)) as H.
  { induction l as [|x l IH]; intros acc; simpl.
    - by rewrite app_nil_r.
    - rewrite IH. by rewrite <- app_assoc. }
  by rewrite H.
Qed.













(** Two echoes of three samples, two samples apart, at half scale. *)
Example echo_decaying :
  (fun out => (this <$> left out, this <$> right out)) <$>
    (match echo decaying 2 1%Qc half with Ok out => Some out | _ => None end)
  = Some ([1; 1 # 2; 3 # 4; 1 # 4; 3 # 8; 1 # 8; 1 # 16]%Q,
          [1; 1 # 2; 0; 1 # 4; 0; 1 # 8; -1 # 8]%Q).
Proof. vm_compute. reflexivity. Qed.


Lemma Qc_of_Z_this (n : Z) : this (Qc_of_Z n) = inject_Z n.
Proof. reflexivity. Qed.

Lemma int_nonneg (y : Qc) : (0 <= y)%Qc -> int y = Qfloor y.
Proof.
  unfold Qcle, int, Qfloor. destruct (this y) as [n d]. simpl.
  unfold Qle. simpl. intros H. apply Z.quot_div_nonneg; lia.
Qed.

Lemma int_nonpos (y : Qc) : (y <= 0)%Qc -> int y = Qceiling y.
Proof.
  unfold Qcle, int, Qceiling, Qfloor. destruct (this y) as [n d]. simpl.
  unfold Qle. simpl. intros H.
  rewrite <- (Z.opp_involutive n) at 1.
  rewrite Z.quot_opp_l by done. f_equal.
  apply Z.quot_div_nonneg; lia.
Qed.

(** From the canonical rationals to [Q], where [lra] works. *)
Ltac to_Q :=
  unfold Qcle, Qclt, Qcminus, Qcplus, Qcmult, Qcopp, Q2Qc in *;
  cbn [this Qc_of_Z] in *;
  rewrite ?Qred_correct in *.

Lemma int_trunc (y : Qc) :
  ((0 <= y)%Qc -> (Qc_of_Z (int y) <= y)%Qc /\ (y < Qc_of_Z (int y) + 1)%Qc)
  /\ ((y <= 0)%Qc -> (Qc_of_Z (int y) - 1 < y)%Qc /\ (y <= Qc_of_Z (int y))%Qc).
Proof.
  split; intros H.
  - rewrite (int_nonneg y H).
    pose proof (Qfloor_le y). pose proof (Qlt_floor y).
    rewrite inject_Z_plus in *. change (inject_Z 1) with 1%Q in *.
    to_Q. generalize dependent (inject_Z (Qfloor y)). intros; split; lra.
  - rewrite (int_nonpos y H).
    pose proof (Qle_ceiling y). pose proof (Qceiling_lt y).
    unfold Z.sub in *. rewrite inject_Z_plus, inject_Z_opp in *.
    change (inject_Z 1) with 1%Q in *. change (inject_Z (-1)) with (-1)%Q in *.
    to_Q. generalize dependent (inject_Z (Qceiling y)). intros; split; lra.
Qed.


Lemma clamp_inside x : (- 1 <= x)%Qc -> (x <= 1)%Qc -> clamp x = x.
Proof.
  intros Hlo Hhi. unfold clamp, max, min.
  destruct (ltb x 1) eqn:E1.
  - destruct (ltb (-1) x) eqn:E2; [done |].
    apply not_true_iff_false in E2. rewrite ltb_lt in E2.
    apply Qcnot_lt_le in E2. by apply Qcle_antisym.
  - apply not_true_iff_false in E1. rewrite ltb_lt in E1.
    apply Qcnot_lt_le in E1.
    assert (ltb (-1) 1 = true) as -> by (apply ltb_lt; qc_closed).
    by apply Qcle_antisym.
Qed.

Lemma clamp_below x : (x < - 1)%Qc -> clamp x = (- 1)%Qc.
Proof.
  intros H. unfold clamp, max, min.
  assert (x < 1)%Qc as H1 by (eapply Qclt_trans; [exact H | qc_closed]).
  apply ltb_lt in H1 as ->.
  destruct (ltb (-1) x) eqn:E; [| done].
  apply ltb_lt in E. exfalso. eapply Qclt_not_le; [exact E |].
  by apply Qclt_le_weak.
Qed.

Lemma clamp_above x : (1 < x)%Qc -> clamp x = 1%Qc.
Proof.
  intros H. unfold clamp, max, min.
  destruct (ltb x 1) eqn:E.
  - apply ltb_lt in E. exfalso. eapply Qclt_not_le; [exact E |].
    by apply Qclt_le_weak.
  - by assert (ltb (-1) 1 = true) as -> by (apply ltb_lt; qc_closed).
Qed.



(** A byte below and a byte shifted by eight bits share no bit. *)
Lemma lor_bytes (b0 b1 : Z) :
  0 <= b0 < 256 -> Z.lor b0 (Z.shiftl b1 8) = b0 + b1 * 256.
Proof.
  intros H0. rewrite Z.shiftl_mul_pow2 by lia. change (2 ^ 8) with 256.
  assert (Z.land b0 (b1 * 256) = 0) as Hd.
  { apply Z.bits_inj'. intros n Hn. rewrite Z.land_spec, Z.bits_0.
    destruct (Z.lt_ge_cases n 8) as [Hlt | Hge].
    - change 256 with (2 ^ 8).
      rewrite (Z.mul_pow2_bits_low b1 8 n) by lia. apply andb_false_r.
    - replace b0 with (b0 `mod` 2 ^ 8)
        by (apply Z.mod_small; change (2 ^ 8) with 256; lia).
      rewrite Z.mod_pow2_bits_high by lia. done. }
  rewrite <- Z.lxor_lor by exact Hd. symmetry. by apply Z.add_nocarry_lxor.
Qed.

(** Every signed 16-bit integer survives [pack_h] then [unpack_h]. *)
Lemma unpack_pack (v : Z) :
  - 2 ^ 15 <= v < 2 ^ 15 ->
  pack_h v = Ok [v `mod` 256; (v / 256) `mod` 256]
  /\ unpack_h [v `mod` 256; (v / 256) `mod` 256] = Ok v.
Proof.
  intros Hv. split.
  - unfold pack_h.
    replace ((v <? - 2 ^ 15) || (2 ^ 15 <=? v)) with false by lia.
    change 255 with (Z.ones 8).
    rewrite !Z.land_ones, Z.shiftr_div_pow2 by lia. done.
  - unfold unpack_h. rewrite lor_bytes by (apply Z.mod_pos_bound; lia).
    f_equal. change (2 ^ 15) with 32768 in *. change (2 ^ 16) with 65536.
    destruct (Z.leb_spec 32768 (v `mod` 256 + (v `div` 256) `mod` 256 * 256));
      Z.div_mod_to_equations; lia.
Qed.



Example encode_minus_half :
  encode_sample (- half)%Qc = - 16383
  /\ pack_h (encode_sample (- half)%Qc) = Ok [1; 192].
Proof. split; reflexivity. Qed.







(** ** [load_audio] *)

Lemma load_audio_wrong_name fs filename :
  last_chars 4 filename <> ".wav" ->
  load_audio fs filename = ([], Raise (AssertionError wav_msg)).
Proof.
  intros H. unfold load_audio.
  apply String.eqb_neq in H. by rewrite H.
Qed.

Lemma load_audio_not_wave fs filename :
  last_chars 4 filename = ".wav" -> fs !! filename = Some NotWave ->
  load_audio fs filename = ([EvOpen filename], Raise WaveError).
Proof.
  intros H Hf. unfold load_audio, open_r.
  apply String.eqb_eq in H. by rewrite H, Hf.
Qed.

Lemma load_audio_wrong_depth fs filename w :
  last_chars 4 filename = ".wav" -> fs !! filename = Some (IsWave w) ->
  sampwidth w <> 2 ->
  load_audio fs filename
  = ([EvOpen filename; EvGetparams], Raise (AssertionError bits_msg)).
Proof.
  intros H Hf Hw. unfold load_audio, open_r, getparams.
  apply String.eqb_eq in H. rewrite H, Hf. simpl.
  apply Z.eqb_neq in Hw. by rewrite Hw.
Qed.

(** C10: whatever the file system holds, [load_audio] on a name whose
    last four characters are not [.wav] raises the assertion on the
    name before any file operation (no open, no header or frame is
    read); that failure differs from the ones for a file that is not a
    wave file and for a sample width other than 16 bits, both of which
    arise only after the file was opened. *)
Theorem load_audio_name_assertion (fs : gmap string file) (filename : string) :
  last_chars 4 filename <> ".wav" ->
  load_audio fs filename = ([], Raise (AssertionError wav_msg))
  /\ (forall fs' name,
        snd (load_audio fs' name) = Raise WaveError
        \/ snd (load_audio fs' name) = Raise (AssertionError bits_msg) ->
        snd (load_audio fs' name) <> snd (load_audio fs filename)
        /\ exists t, fst (load_audio fs' name) = EvOpen name :: t).
Proof.
  intros H. split; [by apply load_audio_wrong_name |].
  intros fs' name Hkind.
  rewrite (load_audio_wrong_name fs filename H). simpl.
  split; [destruct Hkind as [-> | ->]; discriminate |].
  destruct (decide (last_chars 4 name = ".wav")) as [Hn | Hn].
  - unfold load_audio, open_r. apply String.eqb_eq in Hn. rewrite Hn.
    simpl. destruct (fs' !! name) as [[w|]|]; simpl; [| by eexists ..].
    destruct (sampwidth w =? 2); simpl; [| by eexists].
    destruct (io_for_in _ _ _) as [t [[[? ?] ?]|?]]; simpl; by eexists.
  - rewrite (load_audio_wrong_name fs' name Hn) in Hkind. simpl in Hkind.
    destruct Hkind as [? | ?]; discriminate.
Qed.

(** ** [write_wav] then [load_audio] *)












(** [filename[-4:]] on a name that ends with a four-character suffix. *)
Lemma last_chars_suffix (base suffix : string) :
  last_chars (String.length suffix) (String.append base suffix) = suffix.
Proof.
  unfold last_chars.
  assert (forall a b,
    String.length (String.append a b)
    = (String.length a + String.length b)%nat) as Hlen.
  { induction a as [|c a IH]; intros b; simpl; [done | by rewrite IH]. }
  rewrite Hlen.
  replace (String.length base + String.length suffix - String.length suffix)%nat
    with (String.length base) by lia.
  rewrite Nat.min_l by lia.
  clear Hlen. induction base as [|c base IH].
  - change (String.append "" suffix) with suffix. cbn [String.length].
    induction suffix as [|c s IH]; simpl; [done | by rewrite IH].
  - exact IH.
Qed.

Lemma load_audio_name_assertion_witness :
  load_audio {["song.mp3" := IsWave two_frames]} "song.mp3"
  = ([], Raise (AssertionError wav_msg)).
Proof.
  apply (load_audio_name_assertion {["song.mp3" := IsWave two_frames]} "song.mp3").
  intros H. vm_compute in H. discriminate H.
Defined.

(** The same file under a [.wav] name loads; a name shorter than four
    characters is rejected like any other. *)
Example load_two_frames :
  (fun out => (rate out, this <$> left out, this <$> right out)) <$>
    (match snd (load_audio {["song.wav" := IsWave two_frames]} "song.wav")
     with Ok out => Some out | Raise _ => None end)
  = Some (8000, [1 # 2; 32767 # 32768]%Q, [- 1 # 2; - 32767 # 32768]%Q).
Proof. vm_compute. reflexivity. Qed.

Example load_short_name :
  load_audio {["wav" := IsWave two_frames]} "wav"
  = ([], Raise (AssertionError wav_msg)).
Proof. reflexivity. Qed.

(** ** [round] *)

Lemma sub_of_Z_Q (x : Qc) (z : Z) :
  this (x - Qc_of_Z z)%Qc == (this x - inject_Z z)%Q.
Proof. to_Q. reflexivity. Qed.

(** [round] returns a nearest integer. *)
Lemma round_nearest (x : Qc) : nearest_integer x (round x).
Proof.
  pose proof (Qfloor_le x) as Hlo. pose proof (Qlt_floor x) as Hhi.
  rewrite inject_Z_plus in Hhi. change (inject_Z 1) with 1%Q in Hhi.
  unfold nearest_integer, round, Qcle.
  change (this (- half)%Qc) with (- (1 # 2))%Q.
  change (this half) with (1 # 2)%Q.
  destruct (Qccompare _ _) eqn:E.
  - apply Qceq_alt in E.
    assert (this x - inject_Z (Qfloor x) == 1 # 2)%Q as E'
      by (rewrite <- sub_of_Z_Q, E; reflexivity).
    clear E. destruct (Z.even (Qfloor x)); rewrite sub_of_Z_Q.
    + generalize dependent (inject_Z (Qfloor x)). intros; split; lra.
    + rewrite inject_Z_plus. change (inject_Z 1) with 1%Q.
      generalize dependent (inject_Z (Qfloor x)). intros; split; lra.
  - apply Qclt_alt in E. unfold Qclt in E. rewrite sub_of_Z_Q in E.
    change (this (Q2Qc (1 # 2))) with (1 # 2)%Q in E.
    rewrite sub_of_Z_Q.
    generalize dependent (inject_Z (Qfloor x)). intros; split; lra.
  - apply Qcgt_alt in E. unfold Qclt in E. rewrite sub_of_Z_Q in E.
    change (this (Q2Qc (1 # 2))) with (1 # 2)%Q in E.
    rewrite sub_of_Z_Q, inject_Z_plus. change (inject_Z 1) with 1%Q.
    generalize dependent (inject_Z (Qfloor x)). intros; split; lra.
Qed.

(** * Further properties of the module *)

(** ** Loops that raise, loops that agree *)



(** What holds before a loop and is kept by every turn that returns
    holds after a loop that returns. *)
Lemma for_in_returns {S} (P : S -> Prop) (idx : list nat) body (s s' : S) :
  (forall i t t', body i t = Ok t' -> P t -> P t') ->
  P s -> for_in idx body s = Ok s' -> P s'.
Proof.
  intros Hstep. revert s. induction idx as [|i idx IH]; intros s Hs; simpl.
  - by intros [= <-].
  - destruct (body i s) as [t|] eqn:E; simpl; [| done].
    apply IH. by eapply Hstep.
Qed.

(** ** [multiply_list] *)

(** X1: [multiply_list] returns a list of the same length whose element [i]
    is element [i] of the input times the number. *)
Theorem multiply_list_scales (input_list : list Qc) (number : Qc) :
  length (multiply_list input_list number) = length input_list
  /\ forall i,
       multiply_list input_list number !! i
       = (fun x => (x * number)%Qc) <$> input_list !! i.
Proof.
  rewrite multiply_list_fmap. split; [apply length_fmap |].
  intros i. apply list_lookup_fmap.
Qed.

(** ** [mix], once more *)







(** ** [remove_vocals], once more *)

(** X4: Whatever [remove_vocals] returns has two equal channels, so a
    second [remove_vocals] turns it into silence of the same length. *)
Theorem remove_vocals_twice (s out : sound) :
  remove_vocals s = Ok out ->
  right out = left out
  /\ remove_vocals out = Ok (silence (rate s) (length (left out))).
Proof.
  unfold remove_vocals at 1.
  destruct (for_range _ _ _) as [new|]; simpl; [| done].
  intros [= <-]. split; [done |].
  rewrite remove_vocals_ok by done. simpl.
  by rewrite zip_with_minus_diag.
Qed.

Lemma remove_vocals_twice_witness :
  exists out, remove_vocals decaying = Ok out
              /\ remove_vocals out = Ok (silence 2 3).
Proof.
  destruct (remove_vocals decaying) as [out|] eqn:E; [| discriminate E].
  exists out. split; [reflexivity |].
  destruct (remove_vocals_twice decaying out E) as [_ ->].
  do 2 f_equal.
  unfold remove_vocals in E. simpl in E. injection E as <-. reflexivity.
Defined.

(** ** [pan], once more *)

Lemma pan_one_sample (s : sound) ltr :
  length (left s) = 1%nat -> pan s ltr = Raise ZeroDivisionError.
Proof.
  destruct s as [n [|a [|? ?]] r]; try done. intros _.
  unfold pan, for_range. simpl. by destruct ltr.
Qed.

Lemma gain_mirror ltr n i :
  left_gain (negb ltr) n i = right_gain ltr n i
  /\ right_gain (negb ltr) n i = left_gain ltr n i.
Proof. by destruct ltr. Qed.

(** X5: Panning the other way is panning with the channels exchanged: on a
    well-formed sound, [pan] of the swapped sound in the opposite
    direction is the swap of [pan]'s result, or the same exception. *)
Theorem pan_mirror (s : sound) (left_to_right : bool) :
  well_formed s ->
  pan (swap s) (negb left_to_right)
  = match pan s left_to_right with
    | Ok out => Ok (swap out)
    | Raise e => Raise e
    end.
Proof.
  intros W.
  assert (well_formed (swap s)) as W' by (unfold well_formed; simpl; done).
  destruct (decide (2 <= length (left s))%nat) as [Hn | Hn].
  - rewrite (pan_ok s) by done.
    rewrite (pan_ok (swap s) _ W') by (simpl; by rewrite <- W).
    unfold swap. simpl. rewrite <- W. do 2 f_equal.
    + apply imap_ext. intros i x _. simpl. f_equal. apply gain_mirror.
    + apply imap_ext. intros i x _. simpl. f_equal. apply gain_mirror.
  - destruct (decide (length (left s) = 1%nat)) as [H1 | H1].
    + rewrite (pan_one_sample s) by done.
      by rewrite (pan_one_sample (swap s)) by (simpl; by rewrite <- W).
    + destruct s as [n l r]. unfold well_formed in W. simpl in *.
      destruct l; [| simpl in *; lia]. destruct r; [| done].
      reflexivity.
Qed.

Lemma pan_mirror_witness :
  pan (swap decaying) false
  = match pan decaying true with
    | Ok out => Ok (swap out)
    | Raise e => Raise e
    end.
Proof. apply (pan_mirror decaying true). reflexivity. Defined.



(** ** [echo], once more *)












(** ** Well-formed results *)

Lemma bind_Ok_inv {A B} (m : result A) (k : A -> result B) (b : B) :
  m ≫= k = Ok b -> exists a, m = Ok a /\ k a = Ok b.
Proof. destruct m as [a|]; [by exists a | done]. Qed.

Lemma setitem_length {A} (l l' : list A) (j : Z) (x : A) :
  setitem l j x = Ok l' -> length l' = length l.
Proof.
  unfold setitem. destruct (_ || _); [done |].
  intros [= <-]. apply length_insert.
Qed.

Ltac bind_inv H :=
  repeat (apply bind_Ok_inv in H as (? & ? & H)); cbv beta in H.

Lemma mix_body_lengths a b p i (lr lr' : list Qc * list Qc) :
  mix_body a b p i lr = Ok lr' ->
  length lr.1 = length lr.2 -> length lr'.1 = length lr'.2.
Proof.
  destruct lr as [l r]. unfold mix_body. intros H Hlen.
  bind_inv H. injection H as <-. simpl in *.
  rewrite !length_app. simpl. lia.
Qed.

Lemma pan_body_lengths ltr n i (lr lr' : list Qc * list Qc) :
  pan_body ltr n i lr = Ok lr' ->
  length lr.1 = length lr.2 -> length lr'.1 = length lr'.2.
Proof.
  destruct lr as [l r]. unfold pan_body. intros H Hlen.
  destruct ltr; bind_inv H; injection H as <-; simpl in *;
    repeat match goal with
           | E : setitem _ _ _ = Ok _ |- _ => apply setitem_length in E
           end; congruence.
Qed.

Lemma echo_step_lengths sd num le re i (lr lr' : list Qc * list Qc) :
  echo_step sd num le re i lr = Ok lr' ->
  length lr.1 = length lr.2 -> length lr'.1 = length lr'.2.
Proof.
  destruct lr as [l r]. unfold echo_step. intros H Hlen.
  destruct (_ <=? _); [| by injection H as <-].
  bind_inv H. injection H as <-. simpl in *.
  repeat match goal with
         | E : setitem _ _ _ = Ok _ |- _ => apply setitem_length in E
         end; congruence.
Qed.

Lemma echo_body_lengths s sd scale num (lr lr' : list Qc * list Qc) :
  echo_body s sd scale num lr = Ok lr' ->
  length lr.1 = length lr.2 -> length lr'.1 = length lr'.2.
Proof.
  destruct lr as [l r]. unfold echo_body, for_range. intros H Hlen.
  eapply (for_in_returns (fun lr => length lr.1 = length lr.2)); [| | exact H].
  - intros i t t'. apply echo_step_lengths.
  - simpl in *. rewrite !length_app. by rewrite Hlen.
Qed.

Lemma echo_while_lengths s num_echos sd scale (fuel : nat) :
  forall num (lr lr' : list Qc * list Qc),
    (Z.to_nat (num_echos - num) <= fuel)%nat ->
    echo_while s num_echos sd scale num lr = Ok lr' ->
    length lr.1 = length lr.2 -> length lr'.1 = length lr'.2.
Proof.
  induction fuel as [|fuel IH]; intros num lr lr' Hfuel; simp echo_while;
    destruct (Z_lt_dec num num_echos) as [Hlt | Hge]; simp echo_while;
    try lia; try (by intros [= <-]).
  destruct (echo_body s sd scale num lr) as [lr1|] eqn:E; simp echo_while;
    [| done].
  intros H Hlen. pose proof (IH (num + 1) lr1 lr') as IH'.
  simp echo_while in IH'. apply IH'; [lia | exact H |].
  by eapply echo_body_lengths.
Qed.

(** X10: The sounds the edit functions return are well-formed: those of
    [mix] and [remove_vocals] always, those of [backwards], [echo] and
    [pan] whenever the input is; so the functions can be chained. *)
Theorem edits_return_well_formed :
  (forall s, well_formed s -> well_formed (backwards s))
  /\ (forall a b p out, mix a b p = Ok out -> well_formed out)
  /\ (forall s num_echos delay scale out,
        well_formed s -> echo s num_echos delay scale = Ok out ->
        well_formed out)
  /\ (forall s left_to_right out,
        well_formed s -> pan s left_to_right = Ok out -> well_formed out)
  /\ (forall s out, remove_vocals s = Ok out -> well_formed out).
Proof.
  unfold well_formed. repeat split.
  - intros s W. simpl. by rewrite !length_reverse.
  - intros a b p out. unfold mix, for_range.
    destruct (negb _); [done |]. destruct (negb _); [done |].
    intros H. bind_inv H. destruct x as [l r]. injection H as <-. simpl.
    by apply (for_in_returns (fun lr => length lr.1 = length lr.2)
                _ (mix_body a b p) ([], []) (l, r)
                (mix_body_lengths a b p) eq_refl H0).
  - intros s num_echos delay scale out W. unfold echo.
    intros H. bind_inv H. destruct x as [l r]. injection H as <-. simpl.
    by apply (echo_while_lengths _ _ _ _ _ _ (left s, right s) (l, r)
                (Nat.le_refl _) H0 W).
  - intros s ltr out W. unfold pan, for_range.
    intros H. bind_inv H. destruct x as [l r]. injection H as <-. simpl.
    by apply (for_in_returns (fun lr => length lr.1 = length lr.2)
                _ _ (left s, right s) (l, r)
                (pan_body_lengths ltr _) W H0).
  - intros s out. unfold remove_vocals.
    intros H. bind_inv H. by injection H as <-.
Qed.

Lemma edits_return_well_formed_witness :
  well_formed (backwards decaying)
  /\ (exists out, mix ones zeros half = Ok out /\ well_formed out)
  /\ (exists out, pan decaying false = Ok out /\ well_formed out).
Proof.
  destruct edits_return_well_formed as (Hb & Hm & _ & Hp & _).
  split; [apply Hb; reflexivity |]. split.
  - destruct (mix ones zeros half) as [out|] eqn:E.
    + exists out. split; [reflexivity | by apply (Hm ones zeros half)].
    + exfalso. rewrite mix_half in E. discriminate E.
  - destruct (pan decaying false) as [out|] eqn:E.
    + exists out. split; [reflexivity |].
      by apply (Hp decaying false out eq_refl).
    + exfalso. vm_compute in E. discriminate E.
Defined.

(** ** [write_wav] and [load_audio], once more *)





(** The rule of the reading loop: an invariant [P i] of the state
    before turn [i] that every returning turn re-establishes holds
    after a loop that returns. *)
Lemma io_for_in_returns {S} (P : nat -> S -> Prop) body (a n : nat) (s s' : S) tr :
  (forall i t t' tr', body i t = (tr', Ok t') -> P i t -> P (Datatypes.S i) t') ->
  P a s -> io_for_in (seq a n) body s = (tr, Ok s') -> P (a + n)%nat s'.
Proof.
  intros Hstep. revert a s tr.
  induction n as [|n IH]; intros a s tr Hs; simpl.
  - intros [= _ <-]. by rewrite Nat.add_0_r.
  - unfold mbind at 1. unfold io_bind.
    destruct (body a s) as [t1 [s1|]] eqn:E; [| done].
    destruct (io_for_in (seq (Datatypes.S a) n) body s1) as [t2 r2] eqn:E2.
    intros [= _ ->].
    replace (a + Datatypes.S n)%nat with (Datatypes.S a + n)%nat by lia.
    eapply IH; [| exact E2]. by eapply Hstep.
Qed.

Lemma unpack_h_int16 (bs : list Z) (v : Z) :
  Forall (fun b => 0 <= b < 256) bs -> unpack_h bs = Ok v ->
  - 2 ^ 15 <= v < 2 ^ 15.
Proof.
  intros Hb. destruct bs as [|b0 [|b1 [|? ?]]]; try done.
  apply Forall_cons in Hb as [H0 Hb]. apply Forall_cons in Hb as [H1 _].
  unfold unpack_h. rewrite lor_bytes by done. intros [= <-].
  change (2 ^ 15) with 32768. change (2 ^ 16) with 65536.
  destruct (Z.leb_spec 32768 (b0 + b1 * 256)); lia.
Qed.

Lemma load_body_keeps (w : wave_file) chan i st st' tr :
  load_body chan i st = (tr, Ok st') ->
  loading w i st -> loading w (S i) st'.
Proof.
  destruct st as [[f l] r]. intros H (Hh & Hb & Hl & Hr & Il & Ir).
  simpl in Hh, Hb, Hl, Hr, Il, Ir.
  unfold load_body, readframes in H. unfold mbind at 1 in H.
  unfold io_bind in H. cbv beta iota in H.
  set (size := Z.to_nat (1 * (nchannels (header f) * sampwidth (header f)))) in *.
  assert (Forall (fun b => 0 <= b < 256) (take size (rest f))) as Hfr
    by (by apply Forall_take).
  assert (Forall (fun b => 0 <= b < 256) (drop size (rest f))) as Hrest
    by (by apply Forall_drop).
  unfold pure, mbind, io_bind, mret, io_ret in H.
  destruct (chan =? 2).
  - destruct (unpack_h (take 2 (take size (rest f)))) as [a|] eqn:Ea; [| done].
    destruct (unpack_h (drop 2 (take size (rest f)))) as [b|] eqn:Eb; [| done].
    injection H as _ <-. unfold loading. simpl.
    rewrite !length_app, !Forall_app, !Forall_singleton. simpl.
    split; [done |]. split; [done |]. split; [lia |]. split; [lia |].
    split; (split; [done |]).
    + eapply unpack_h_int16; [| exact Ea]. by apply Forall_take.
    + eapply unpack_h_int16; [| exact Eb]. by apply Forall_drop.
  - destruct (unpack_h (take size (rest f))) as [a|] eqn:Ea; [| done].
    injection H as _ <-. unfold loading. simpl.
    rewrite !length_app, !Forall_app, !Forall_singleton. simpl.
    split; [done |]. split; [done |]. split; [lia |]. split; [lia |].
    split; (split; [done |]); (eapply unpack_h_int16; [exact Hfr | exact Ea]).
Qed.

Lemma decode_sample_range (v : Z) :
  - 2 ^ 15 <= v < 2 ^ 15 ->
  (- 1 <= decode_sample v)%Qc /\ (decode_sample v < 1)%Qc.
Proof.
  intros [Hlo Hhi]. apply Z2Qc_inj_le in Hlo. apply Z2Qc_inj_lt in Hhi.
  unfold decode_sample, Qcdiv, Qcinv, Qcle, Qclt in *. to_Q.
  change (/ inject_Z (2 ^ 15))%Q with (1 # 32768)%Q.
  change (inject_Z (- 2 ^ 15)) with (- 32768)%Q in Hlo.
  change (inject_Z (2 ^ 15)) with 32768%Q in Hhi.
  change (Qred 1) with 1%Q.
  generalize dependent (inject_Z v). intros; split; lra.
Qed.

(** X13: What a returning [load_audio] guarantees: the name ends in [.wav],
    the file is a 16-bit wave file, and the sound has the file's frame
    rate, the file's number of frames in each channel, and every
    sample in [[-1, 1)]. *)
Theorem load_audio_result (fs : gmap string file) (filename : string)
    (tr : list event) (out : sound) :
  (forall name w, fs !! name = Some (IsWave w) ->
     Forall (fun b => 0 <= b < 256) (frames w)) ->
  load_audio fs filename = (tr, Ok out) ->
  exists w,
    last_chars 4 filename = ".wav" /\ fs !! filename = Some (IsWave w)
    /\ sampwidth w = 2 /\ rate out = framerate w
    /\ length (left out) = nframes w /\ length (right out) = nframes w
    /\ Forall (fun x => (- 1 <= x)%Qc /\ (x < 1)%Qc) (left out)
    /\ Forall (fun x => (- 1 <= x)%Qc /\ (x < 1)%Qc) (right out).
Proof.
  intros Hbytes. unfold load_audio, assert, open_r, getparams, pure.
  destruct (String.eqb_spec (last_chars 4 filename) ".wav") as [Hn | Hn];
    [| done].
  unfold mbind at 1. unfold io_bind.
  unfold mbind at 1. unfold io_bind.
  destruct (fs !! filename) as [[w|]|] eqn:Ef; try done.
  unfold mbind at 1. unfold io_bind. cbv beta iota. cbn [header].
  destruct (Z.eqb_spec (sampwidth w) 2) as [Hw | Hw]; [| done].
  unfold mbind at 1. unfold io_bind.
  unfold mbind at 1. unfold io_bind.
  destruct (io_for_in _ _ _) as [t [[[f l] r]|]] eqn:Eloop; [| done].
  unfold mret, io_ret. intros [= _ <-].
  assert (loading w (0 + nframes w) (f, l, r)) as (_ & _ & Hl & Hr & Il & Ir).
  { eapply io_for_in_returns; [| | exact Eloop].
    - intros i st st' tr'. apply load_body_keeps.
    - unfold loading. simpl. repeat split; try done.
      by apply (Hbytes filename). }
  simpl in Hl, Hr, Il, Ir.
  exists w. simpl. rewrite !length_map.
  repeat split; try done.
  - apply Forall_map. eapply Forall_impl; [exact Il |].
    intros v. apply decode_sample_range.
  - apply Forall_map. eapply Forall_impl; [exact Ir |].
    intros v. apply decode_sample_range.
Qed.

Lemma load_audio_result_witness :
  exists tr out,
    load_audio {["song.wav" := IsWave two_frames]} "song.wav" = (tr, Ok out)
    /\ rate out = 8000 /\ length (left out) = 2%nat.
Proof.
  destruct (load_audio {["song.wav" := IsWave two_frames]} "song.wav")
    as [tr [out|]] eqn:E; [| vm_compute in E; discriminate E].
  exists tr, out. split; [reflexivity |].
  destruct (load_audio_result {["song.wav" := IsWave two_frames]} "song.wav"
              tr out) as (w & _ & Hf & _ & Hr & Hl & _).
  - intros name w Hw.
    apply lookup_singleton_Some in Hw as [_ [= <-]].
    repeat constructor; lia.
  - exact E.
  - rewrite lookup_singleton_eq in Hf. injection Hf as <-.
    split; [exact Hr | exact Hl].
Defined.

(** One turn of the reading loop on a mono frame. *)
Lemma load_body_mono (w : wave_file) (v : Z) (bs : list Z) i (l r : list Z) :
  nchannels w = 1 -> sampwidth w = 2 -> - 2 ^ 15 <= v < 2 ^ 15 ->
  load_body 1 i (WaveRead w (bytes2 v ++ bs), l, r)
  = ([EvReadframes 1], Ok (WaveRead w bs, l ++ [v], r ++ [v])).
Proof.
  intros Hc Hw Hv. destruct (unpack_pack v Hv) as [_ Hu].
  unfold load_body, readframes. cbn [header rest]. rewrite Hc, Hw.
  change (Z.to_nat (1 * (1 * 2))) with 2%nat.
  unfold bytes2 in *.
  cbn [app take drop mbind io_bind Z.eqb Pos.eqb pure].
  rewrite take_0, drop_0, Hu. reflexivity.
Qed.

Lemma load_loop_mono (w : wave_file) (vs : list Z) (k : nat) (l r : list Z) :
  nchannels w = 1 -> sampwidth w = 2 ->
  Forall (fun v => - 2 ^ 15 <= v < 2 ^ 15) vs ->
  io_for_in (seq k (length vs)) (load_body 1)
    (WaveRead w (vs ≫= bytes2), l, r)
  = (replicate (length vs) (EvReadframes 1),
     Ok (WaveRead w [], l ++ vs, r ++ vs)).
Proof.
  intros Hc Hw Hvs. revert k l r.
  induction Hvs as [|v vs Hv _ IH]; intros k l r.
  - simpl. by rewrite !app_nil_r.
  - cbn [length seq io_for_in mbind list_bind].
    rewrite (load_body_mono w v _ k l r Hc Hw Hv).
    unfold mbind at 1. unfold io_bind. rewrite IH.
    cbn [app replicate]. by rewrite <- !app_assoc.
Qed.

(** X14: A mono 16-bit file loads into a sound whose two channels are both
    the file's samples, each divided by [2^15]. *)
Theorem load_audio_mono (fs : gmap string file) (filename : string)
    (w : wave_file) (vs : list Z) :
  last_chars 4 filename = ".wav" -> fs !! filename = Some (IsWave w) ->
  nchannels w = 1 -> sampwidth w = 2 -> nframes w = length vs ->
  Forall (fun v => - 2 ^ 15 <= v < 2 ^ 15) vs -> frames w = vs ≫= bytes2 ->
  load_audio fs filename
  = ([EvOpen filename; EvGetparams] ++ replicate (length vs) (EvReadframes 1),
     Ok {| rate := framerate w;
           left := decode_sample <$> vs; right := decode_sample <$> vs |}).
Proof.
  intros Hn Hf Hc Hw Hcount Hvs Hdata.
  unfold load_audio, open_r, getparams.
  apply String.eqb_eq in Hn. rewrite Hn, Hf.
  cbn [assert pure mbind io_bind app header]. rewrite Hw, Hc, Hcount, Hdata.
  cbn [Z.eqb Pos.eqb]. cbv iota beta.
  rewrite load_loop_mono by done.
  unfold mbind at 1. unfold io_bind. cbn [mret io_ret app].
  by rewrite app_nil_r.
Qed.

(** A mono file of the two samples 16384 and -32768. *)
Lemma load_audio_mono_witness :
  load_audio
    {["m.wav" := IsWave (WaveFile 1 2 44100 2 [0; 64; 0; 128])]} "m.wav"
  = ([EvOpen "m.wav"; EvGetparams; EvReadframes 1; EvReadframes 1],
     Ok {| rate := 44100;
           left := decode_sample <$> [16384; - 32768];
           right := decode_sample <$> [16384; - 32768] |}).
Proof.
  apply (load_audio_mono _ "m.wav" (WaveFile 1 2 44100 2 [0; 64; 0; 128])
           [16384; - 32768]); try reflexivity.
  repeat constructor; lia.
Defined.

(** X15: A wave file whose samples are not 16 bits wide is rejected by the
    second assertion, after the open and the read of the header and
    before any frame is read. *)
Theorem load_audio_sample_width (fs : gmap string file) (filename : string)
    (w : wave_file) :
  last_chars 4 filename = ".wav" -> fs !! filename = Some (IsWave w) ->
  sampwidth w <> 2 ->
  load_audio fs filename
  = ([EvOpen filename; EvGetparams], Raise (AssertionError bits_msg)).
Proof. apply load_audio_wrong_depth. Qed.

Lemma load_audio_sample_width_witness :
  load_audio {["b.wav" := IsWave (WaveFile 2 1 8000 1 [128; 128])]} "b.wav"
  = ([EvOpen "b.wav"; EvGetparams], Raise (AssertionError bits_msg)).
Proof.
  apply (load_audio_sample_width _ "b.wav" (WaveFile 2 1 8000 1 [128; 128]));
    [reflexivity | reflexivity | simpl; lia].
Defined.

Lemma load_body_wide (w : wave_file) i (l r : list Z) :
  3 <= nchannels w -> sampwidth w = 2 -> (3 <= length (frames w))%nat ->
  load_body (nchannels w) i (WaveRead w (frames w), l, r)
  = ([EvReadframes 1], Raise StructError).
Proof.
  intros Hc Hw Hdata. unfold load_body, readframes.
  cbn [header rest mbind io_bind]. rewrite Hw.
  replace (nchannels w =? 2) with false by lia.
  assert (3 <= length (take (Z.to_nat (1 * (nchannels w * 2))) (frames w)))%nat
    as Hlen by (rewrite length_take; lia).
  destruct (take _ (frames w)) as [|b0 [|b1 [|b2 bs]]];
    simpl in Hlen; try lia.
  reflexivity.
Qed.

(** X16: A 16-bit file of three channels or more that holds a frame is not
    rejected by an assertion: the first frame is read and unpacking its
    six bytes or more as one 16-bit integer raises [struct.error]. *)
Theorem load_audio_many_channels (fs : gmap string file) (filename : string)
    (w : wave_file) :
  last_chars 4 filename = ".wav" -> fs !! filename = Some (IsWave w) ->
  3 <= nchannels w -> sampwidth w = 2 ->
  (1 <= nframes w)%nat -> (3 <= length (frames w))%nat ->
  load_audio fs filename
  = ([EvOpen filename; EvGetparams; EvReadframes 1], Raise StructError).
Proof.
  intros Hn Hf Hc Hw Hcount Hdata.
  unfold load_audio, open_r, getparams.
  apply String.eqb_eq in Hn. rewrite Hn, Hf.
  cbn [assert pure mbind io_bind app header]. rewrite Hw.
  cbn [Z.eqb Pos.eqb]. cbv iota beta.
  destruct (nframes w) as [|n]; [lia |].
  cbn [seq io_for_in]. rewrite load_body_wide by done.
  reflexivity.
Qed.

Lemma load_audio_many_channels_witness :
  load_audio
    {["s.wav" := IsWave (WaveFile 3 2 8000 1 [0; 0; 0; 0; 0; 0])]} "s.wav"
  = ([EvOpen "s.wav"; EvGetparams; EvReadframes 1], Raise StructError).
Proof.
  apply (load_audio_many_channels _ "s.wav"
           (WaveFile 3 2 8000 1 [0; 0; 0; 0; 0; 0]));
    try reflexivity; simpl; lia.
Defined.

(** ** The two numeric maps, once more *)

(** Comparisons of canonical rationals, decided in [Q]. *)
Ltac qc_lra :=
  unfold Qcle, Qclt in *;
  change (this 1%Qc) with 1%Q in *;
  change (this (- 1)%Qc) with (- 1)%Q in *;
  change (this 0%Qc) with 0%Q in *;
  lra.

Lemma int_between_nonneg (y : Qc) (z : Z) :
  (0 <= y)%Qc -> (Qc_of_Z z <= y)%Qc -> (y < Qc_of_Z z + 1)%Qc -> int y = z.
Proof.
  intros Hy Hlo Hhi. destruct (int_trunc y) as [[H1 H2] _]; [done |].
  assert (Qc_of_Z z < Qc_of_Z (int y + 1))%Qc as A
    by (rewrite Z2Qc_inj_add, Z2Qc_inj_1; by eapply Qcle_lt_trans).
  assert (Qc_of_Z (int y) < Qc_of_Z (z + 1))%Qc as B
    by (rewrite Z2Qc_inj_add, Z2Qc_inj_1; by eapply Qcle_lt_trans).
  apply Z2Qc_inj_lt in A, B. lia.
Qed.

Lemma int_between_nonpos (y : Qc) (z : Z) :
  (y <= 0)%Qc -> (Qc_of_Z z - 1 < y)%Qc -> (y <= Qc_of_Z z)%Qc -> int y = z.
Proof.
  intros Hy Hlo Hhi. destruct (int_trunc y) as [_ [H1 H2]]; [done |].
  assert (Qc_of_Z (z - 1) < Qc_of_Z (int y))%Qc as A
    by (rewrite Z2Qc_inj_sub, Z2Qc_inj_1; by eapply Qclt_le_trans).
  assert (Qc_of_Z (int y - 1) < Qc_of_Z z)%Qc as B
    by (rewrite Z2Qc_inj_sub, Z2Qc_inj_1; by eapply Qclt_le_trans).
  apply Z2Qc_inj_lt in A, B. lia.
Qed.

Lemma decoded_scaled_Q (t : Z) :
  this (decode_sample t * full_scale)%Qc == (inject_Z t * (32767 # 32768))%Q.
Proof.
  unfold decode_sample, full_scale, Qcdiv, Qcinv. to_Q.
  change (/ inject_Z (2 ^ 15))%Q with (1 # 32768)%Q.
  change (inject_Z (2 ^ 15 - 1)) with 32767%Q. field.
Qed.

(** X17: Encoding a decoded integer does not give the integer back: every
    signed 16-bit integer other than zero comes back one step closer
    to zero.  A file loaded and written again is not the same file. *)
Theorem encode_decode_drifts (t : Z) :
  - 2 ^ 15 <= t < 2 ^ 15 ->
  encode_sample (decode_sample t) = t - Z.sgn t.
Proof.
  intros Ht. destruct (decode_sample_range t Ht) as [Hlo Hhi].
  change (encode_sample (decode_sample t))
    with (int (clamp (decode_sample t) * full_scale)%Qc).
  rewrite clamp_inside by (done || by apply Qclt_le_weak).
  pose proof (decoded_scaled_Q t) as Ey.
  assert (this (Qc_of_Z (t - Z.sgn t)) = inject_Z (t - Z.sgn t)) as Ez
    by reflexivity.
  assert (this (Qc_of_Z (t - Z.sgn t) + 1)%Qc == inject_Z (t - Z.sgn t) + 1)%Q
    as Ez1 by (to_Q; reflexivity).
  assert (this (Qc_of_Z (t - Z.sgn t) - 1)%Qc == inject_Z (t - Z.sgn t) - 1)%Q
    as Ez2 by (to_Q; reflexivity).
  assert (inject_Z (- 32768) <= inject_Z t)%Q as B1
    by (rewrite <- Zle_Qle; lia).
  assert (inject_Z t <= inject_Z 32767)%Q as B2
    by (rewrite <- Zle_Qle; lia).
  change (inject_Z (- 32768)) with (- 32768)%Q in B1.
  change (inject_Z 32767) with 32767%Q in B2.
  destruct (Z.lt_trichotomy t 0) as [Hneg | [-> | Hpos]].
  - replace (Z.sgn t) with (- 1) in * by lia.
    assert (inject_Z t <= inject_Z (- 1))%Q as B3 by (rewrite <- Zle_Qle; lia).
    change (inject_Z (- 1)) with (- 1)%Q in B3.
    apply int_between_nonpos; unfold Qcle, Qclt;
      rewrite Ey, ?Ez, ?Ez2; change (this 0%Qc) with 0%Q;
      unfold Z.sub; rewrite ?inject_Z_plus, ?inject_Z_opp;
      change (inject_Z (- 1)) with (- 1)%Q;
      generalize dependent (inject_Z t); intros; lra.
  - reflexivity.
  - replace (Z.sgn t) with 1 in * by lia.
    assert (inject_Z 1 <= inject_Z t)%Q as B3 by (rewrite <- Zle_Qle; lia).
    change (inject_Z 1) with 1%Q in B3.
    apply int_between_nonneg; unfold Qcle, Qclt;
      rewrite Ey, ?Ez, ?Ez1; change (this 0%Qc) with 0%Q;
      unfold Z.sub; rewrite ?inject_Z_plus, ?inject_Z_opp;
      change (inject_Z 1) with 1%Q;
      generalize dependent (inject_Z t); intros; lra.
Qed.

Lemma encode_decode_drifts_witness :
  encode_sample (decode_sample 32767) = 32766
  /\ encode_sample (decode_sample (- 32768)) = - 32767.
Proof.
  split.
  - apply (encode_decode_drifts 32767). lia.
  - apply (encode_decode_drifts (- 32768)). lia.
Defined.

Lemma this_opp (y : Qc) : this (- y)%Qc = (- this y)%Q.
Proof.
  unfold Qcopp, Q2Qc. cbn [this]. rewrite Qred_opp. f_equal. apply canon.
Qed.

Lemma int_opp (y : Qc) : int (- y)%Qc = - int y.
Proof.
  unfold int. rewrite this_opp. destruct (this y) as [n d]. simpl.
  apply Z.quot_opp_l. done.
Qed.

Lemma clamp_opp (x : Qc) : clamp (- x)%Qc = (- clamp x)%Qc.
Proof.
  destruct (Qclt_le_dec x (- 1)) as [Hlo | Hlo];
    [| destruct (Qclt_le_dec 1 x) as [Hhi | Hhi]].
  - rewrite (clamp_below x Hlo), clamp_above; [qc_closed |].
    unfold Qclt in *. rewrite (this_opp x). qc_lra.
  - rewrite (clamp_above x Hhi), clamp_below; [qc_closed |].
    unfold Qclt in *. rewrite (this_opp x). qc_lra.
  - rewrite (clamp_inside x Hlo Hhi), clamp_inside; [done | |];
      unfold Qcle in *; rewrite (this_opp x); qc_lra.
Qed.

(** X18: [write_wav] treats a sample and its opposite alike: the integer of
    [-x] is the opposite of the integer of [x]. *)
Theorem encode_sample_odd (x : Qc) :
  encode_sample (- x)%Qc = - encode_sample x.
Proof.
  change (encode_sample (- x)%Qc) with (int (clamp (- x) * full_scale)%Qc).
  change (encode_sample x) with (int (clamp x * full_scale)%Qc).
  rewrite clamp_opp, <- int_opp. f_equal. ring.
Qed.

Lemma int_mono (y1 y2 : Qc) : (y1 <= y2)%Qc -> int y1 <= int y2.
Proof.
  intros H.
  destruct (Qclt_le_dec y1 0) as [H1 | H1];
    [destruct (Qclt_le_dec 0 y2) as [H2 | H2] |].
  - rewrite (int_nonpos y1) by (by apply Qclt_le_weak).
    rewrite (int_nonneg y2) by (by apply Qclt_le_weak).
    apply Z.le_trans with 0.
    + change 0 with (Qceiling 0%Q). apply Qceiling_resp_le. qc_lra.
    + change 0 with (Qfloor 0%Q). apply Qfloor_resp_le. qc_lra.
  - rewrite (int_nonpos y1) by (by apply Qclt_le_weak).
    rewrite (int_nonpos y2) by done. by apply Qceiling_resp_le.
  - rewrite (int_nonneg y1) by done.
    rewrite (int_nonneg y2) by (by etrans). by apply Qfloor_resp_le.
Qed.

Lemma clamp_cases (x : Qc) :
  ((x < - 1)%Qc /\ clamp x = (- 1)%Qc)
  \/ (((- 1 <= x)%Qc /\ (x <= 1)%Qc) /\ clamp x = x)
  \/ ((1 < x)%Qc /\ clamp x = 1%Qc).
Proof.
  destruct (Qclt_le_dec x (- 1)) as [Hlo | Hlo];
    [| destruct (Qclt_le_dec 1 x) as [Hhi | Hhi]].
  - left. split; [done | by apply clamp_below].
  - right. right. split; [done | by apply clamp_above].
  - right. left. split; [done | by apply clamp_inside].
Qed.

Lemma clamp_mono (x1 x2 : Qc) : (x1 <= x2)%Qc -> (clamp x1 <= clamp x2)%Qc.
Proof.
  intros H.
  destruct (clamp_cases x1) as [[A1 ->] | [[[A1 B1] ->] | [A1 ->]]];
    destruct (clamp_cases x2) as [[A2 ->] | [[[A2 B2] ->] | [A2 ->]]];
    qc_lra.
Qed.

(** X19: [write_wav] keeps the order of samples: a larger sample is never
    written as a smaller integer. *)
Theorem encode_sample_monotone (x1 x2 : Qc) :
  (x1 <= x2)%Qc -> encode_sample x1 <= encode_sample x2.
Proof.
  intros H.
  change (encode_sample x1) with (int (clamp x1 * full_scale)%Qc).
  change (encode_sample x2) with (int (clamp x2 * full_scale)%Qc).
  apply int_mono. apply Qcmult_le_compat_r; [by apply clamp_mono | qc_closed].
Qed.

Lemma encode_sample_monotone_witness :
  encode_sample (Q2Qc (1 # 4)) <= encode_sample half.
Proof. apply (encode_sample_monotone (Q2Qc (1 # 4)) half). qc_closed. Defined.
